(** * Shallow embedding of [dataflows.processors.unpivot]

    The processor [unpivot(unpivot_fields, extra_keys, extra_value, resources)]
    of [src/dataflows/processors/unpivot.py], together with the parts of
    Python's [re] module it relies on ([re.compile], [Pattern.fullmatch] and
    [re.sub] with a replacement template).  Python dicts are association
    lists in insertion order, Python exceptions are the constructors of
    [exn], and a generator is the list of the values it yields together with
    the exception it ends with, if any. *)

From Stdlib Require Import String Ascii List Bool Arith Lia.
Import ListNotations.

(** ** Python exceptions and the error monad *)

Inductive exn : Type :=
| KeyError (k : string)   (** [d[k]] on a dict without key [k] *)
| ReError                 (** [re.error]: an invalid pattern or template *)
| ReUnsupported           (** a regex construct outside the modelled subset *)
| UnboundLocalError.      (** a local variable read before assignment *)

Inductive result (A : Type) : Type :=
| Ok (a : A)
| Err (e : exn).
Arguments Ok {A} a.
Arguments Err {A} e.

Definition bind {A B : Type} (m : result A) (f : A -> result B) : result B :=
  match m with
  | Ok a => f a
  | Err e => Err e
  end.

Notation "x <- m ;; k" := (bind m (fun x => k))
  (at level 60, right associativity).

(** ** The regular expressions of Python's [re] module (a subset)

    Literal characters, [.], the classes [\d] and [\w] (ASCII), escaped
    punctuation, capturing groups, alternation and the greedy quantifiers
    [*], [+] and [?].  Other constructs ([[...]], [{m,n}], anchors, lazy
    quantifiers, [(?...)] extensions, other escapes) are reported as
    [ReUnsupported] rather than given a meaning. *)

Module Regex.

Inductive re : Type :=
| REps
| RChar (c : ascii)
| RAny
| RDigit
| RWord
| RSeq (r1 r2 : re)
| RAlt (r1 r2 : re)
| RStar (r : re)
| RGroup (n : nat) (r : re).

Definition is_digit (c : ascii) : bool :=
  (48 <=? nat_of_ascii c) && (nat_of_ascii c <=? 57).

Definition is_alpha (c : ascii) : bool :=
  let n := nat_of_ascii c in
  ((65 <=? n) && (n <=? 90)) || ((97 <=? n) && (n <=? 122)).

Definition is_word (c : ascii) : bool :=
  is_digit c || is_alpha c || Ascii.eqb c "_"%char.

(** Capture spans: group number [n] spans positions [[b, e)]; the first
    entry for a group is the current one. *)
Definition caps := list (nat * (nat * nat)).

Definition char_test (t : ascii -> bool) (s : list ascii) (i : nat) (c : caps)
  : list (nat * caps) :=
  match nth_error s i with
  | Some b => if t b then [(S i, c)] else []
  | None => []
  end.

(** Backtracking matcher: all the ways [r] matches [s] from position [i],
    in the order Python's engine tries them (greedy iterations first).  An
    iteration of [*] must consume input, as in Python's engine, which stops
    repeating on an empty iteration. *)
Fixpoint m (r : re) (s : list ascii) (i : nat) (c : caps) {struct r}
  : list (nat * caps) :=
  match r with
  | REps => [(i, c)]
  | RChar a => char_test (Ascii.eqb a) s i c
  | RAny => char_test (fun b => negb (Ascii.eqb b "010"%char)) s i c
  | RDigit => char_test is_digit s i c
  | RWord => char_test is_word s i c
  | RSeq r1 r2 => flat_map (fun jc => m r2 s (fst jc) (snd jc)) (m r1 s i c)
  | RAlt r1 r2 => m r1 s i c ++ m r2 s i c
  | RGroup n r1 =>
      map (fun jc => (fst jc, (n, (i, fst jc)) :: snd jc)) (m r1 s i c)
  | RStar r1 =>
      let step := m r1 s in
      let fix star (fuel i : nat) (c : caps) : list (nat * caps) :=
        match fuel with
        | O => [(i, c)]
        | S f =>
            flat_map (fun jc => if i <? fst jc then star f (fst jc) (snd jc)
                                 else []) (step i c)
            ++ [(i, c)]
        end in
      star (length s - i) i c
  end.

Record compiled : Type := mkCompiled { c_re : re; c_groups : nat }.

(** *** [re.compile]: a recursive-descent parser of the pattern string *)

Inductive presult : Type :=
| POk (r : re) (rest : list ascii) (g : nat)
| PFail (e : exn).

Definition is_quant (c : ascii) : bool :=
  Ascii.eqb c "*"%char || Ascii.eqb c "+"%char || Ascii.eqb c "?"%char.

(** A quantifier after an atom; a second one is [**] ("multiple repeat")
    or a lazy/possessive form. *)
Definition p_quant (a : re) (s : list ascii) : result (re * list ascii) :=
  match s with
  | q :: rest =>
      if is_quant q then
        let r := if Ascii.eqb q "*"%char then RStar a
                 else if Ascii.eqb q "+"%char then RSeq a (RStar a)
                 else RAlt a REps in
        match rest with
        | d :: _ =>
            if Ascii.eqb d "*"%char then Err ReError
            else if is_quant d then Err ReUnsupported
            else Ok (r, rest)
        | [] => Ok (r, rest)
        end
      else Ok (a, s)
  | [] => Ok (a, s)
  end.

Fixpoint p_alt (n : nat) (s : list ascii) (g : nat) {struct n} : presult :=
  match n with
  | O => PFail ReUnsupported
  | S n' =>
      match p_seq n' s g with
      | POk r1 (c :: rest') g1 =>
          if Ascii.eqb c "|"%char then
            match p_alt n' rest' g1 with
            | POk r2 rest2 g2 => POk (RAlt r1 r2) rest2 g2
            | PFail e => PFail e
            end
          else POk r1 (c :: rest') g1
      | other => other
      end
  end
with p_seq (n : nat) (s : list ascii) (g : nat) {struct n} : presult :=
  match n with
  | O => PFail ReUnsupported
  | S n' =>
      match s with
      | [] => POk REps [] g
      | c :: _ =>
          if Ascii.eqb c "|"%char || Ascii.eqb c ")"%char then POk REps s g
          else
            match p_atom n' s g with
            | POk a rest g1 =>
                match p_quant a rest with
                | Ok (a', rest1) =>
                    match p_seq n' rest1 g1 with
                    | POk r rest2 g2 => POk (RSeq a' r) rest2 g2
                    | PFail e => PFail e
                    end
                | Err e => PFail e
                end
            | PFail e => PFail e
            end
      end
  end
with p_atom (n : nat) (s : list ascii) (g : nat) {struct n} : presult :=
  match n with
  | O => PFail ReUnsupported
  | S n' =>
      match s with
      | [] => PFail ReError
      | c :: rest =>
          if Ascii.eqb c "("%char then
            match rest with
            | d :: _ =>
                if Ascii.eqb d "?"%char then PFail ReUnsupported
                else
                  match p_alt n' rest (S g) with
                  | POk r (e :: rest') g1 =>
                      if Ascii.eqb e ")"%char then POk (RGroup (S g) r) rest' g1
                      else PFail ReError
                  | POk _ [] _ => PFail ReError
                  | PFail e => PFail e
                  end
            | [] => PFail ReError
            end
          else if is_quant c then PFail ReError
          else if Ascii.eqb c "."%char then POk RAny rest g
          else if Ascii.eqb c "\"%char then
            match rest with
            | [] => PFail ReError
            | d :: rest' =>
                if Ascii.eqb d "d"%char then POk RDigit rest' g
                else if Ascii.eqb d "w"%char then POk RWord rest' g
                else if is_digit d || is_alpha d then PFail ReUnsupported
                else POk (RChar d) rest' g
            end
          else if Ascii.eqb c "["%char || Ascii.eqb c "{"%char
                  || Ascii.eqb c "^"%char || Ascii.eqb c "$"%char
          then PFail ReUnsupported
          else POk (RChar c) rest g
      end
  end.

Definition compile (p : string) : result compiled :=
  let s := list_ascii_of_string p in
  match p_alt (3 * length s + 3) s 0 with
  | POk r [] g => Ok (mkCompiled r g)
  | POk _ _ _ => Err ReError   (* unbalanced parenthesis *)
  | PFail e => Err e
  end.

(** *** [Pattern.fullmatch]: the first match, in the engine's order, that
    spans the whole string. *)
Definition fullmatch (cp : compiled) (name : string) : option caps :=
  let s := list_ascii_of_string name in
  option_map snd (find (fun jc => fst jc =? length s) (m (c_re cp) s 0 [])).

(** *** Replacement templates of [re.sub] *)

Inductive titem : Type :=
| TLit (c : ascii)
| TGroup (n : nat).

Definition digit_val (c : ascii) : nat := nat_of_ascii c - 48.

Fixpoint parse_template (t : list ascii) (ngroups : nat) : result (list titem) :=
  match t with
  | [] => Ok []
  | c :: rest =>
      if Ascii.eqb c "\"%char then
        match rest with
        | [] => Err ReError
        | d :: rest' =>
            if is_digit d then
              if Ascii.eqb d "0"%char then Err ReUnsupported
              else
                match rest' with
                | e :: _ => if is_digit e then Err ReUnsupported
                            else if ngroups <? digit_val d then Err ReError
                            else tl <- parse_template rest' ngroups ;;
                                 Ok (TGroup (digit_val d) :: tl)
                | [] => if ngroups <? digit_val d then Err ReError
                        else Ok [TGroup (digit_val d)]
                end
            else if Ascii.eqb d "\"%char then
              tl <- parse_template rest' ngroups ;; Ok (TLit "\"%char :: tl)
            else if Ascii.eqb d "n"%char then
              tl <- parse_template rest' ngroups ;; Ok (TLit "010"%char :: tl)
            else if is_alpha d then Err ReUnsupported
            else tl <- parse_template rest' ngroups ;; Ok (TLit c :: TLit d :: tl)
        end
      else tl <- parse_template rest ngroups ;; Ok (TLit c :: tl)
  end.

Fixpoint cap_lookup (n : nat) (c : caps) : option (nat * nat) :=
  match c with
  | [] => None
  | (k, sp) :: c' => if k =? n then Some sp else cap_lookup n c'
  end.

Definition slice (s : list ascii) (b e : nat) : list ascii :=
  firstn (e - b) (skipn b s).

(** An unmatched group expands to the empty string. *)
Definition expand (tm : list titem) (s : list ascii) (c : caps) : list ascii :=
  flat_map (fun it => match it with
                      | TLit ch => [ch]
                      | TGroup n => match cap_lookup n c with
                                    | Some (b, e) => slice s b e
                                    | None => []
                                    end
                      end) tm.

(** The scan of [re.sub]: the leftmost match at or after [pos] is replaced;
    after an empty match the next match must not be empty at the same
    place ([must_advance] of CPython's engine). *)
Fixpoint sub_loop (fuel : nat) (r : re) (tm : list titem) (s : list ascii)
    (pos : nat) (must_advance : bool) : list ascii :=
  match fuel with
  | O => []
  | S f =>
      match find (fun jc => negb (must_advance && (fst jc =? pos))) (m r s pos []) with
      | Some (e, c) =>
          expand tm s c ++ sub_loop f r tm s e (e =? pos)
      | None =>
          match nth_error s pos with
          | Some ch => ch :: sub_loop f r tm s (S pos) false
          | None => []
          end
      end
  end.

(** [re.sub(pattern, template, name)] for a pattern that compiled to [cp]. *)
Definition sub (cp : compiled) (template name : string) : result string :=
  tm <- parse_template (list_ascii_of_string template) (c_groups cp) ;;
  let s := list_ascii_of_string name in
  Ok (string_of_list_ascii (sub_loop (2 * length s + 2) (c_re cp) tm s 0 false)).

End Regex.

(** ** Rows, field descriptors and configuration *)

Inductive value : Type :=
| VNone
| VInt (z : nat)
| VStr (s : string).

(** A Python dict: keys unique, in insertion order. *)
Definition dict := list (string * value).

Fixpoint dict_get (d : dict) (k : string) : option value :=
  match d with
  | [] => None
  | (k', v) :: d' => if String.eqb k' k then Some v else dict_get d' k
  end.

(** [d[k] = v]: an existing key keeps its place, a new one is appended. *)
Fixpoint dict_set (d : dict) (k : string) (v : value) : dict :=
  match d with
  | [] => [(k, v)]
  | (k', v') :: d' =>
      if String.eqb k' k then (k', v) :: d' else (k', v') :: dict_set d' k v
  end.

Definition dict_keys (d : dict) : list string := map fst d.

(** A schema field descriptor: its [name] and the [keys] entry that the
    resolver writes into the descriptors it pivots. *)
Record field : Type := mkField { f_name : string; f_keys : option dict }.

(** An entry of [unpivot_fields]: [{name: pattern, keys: {...}}]; a [VStr]
    value of [keys] is a replacement template, other values are literals. *)
Record ufield : Type := mkUField { u_name : string; u_keys : dict }.

(** A resource: its name, its schema's [fields] ([None] when the descriptor
    has no [schema]; a schema without [fields] reads as the empty list) and
    its rows. *)
Record resource : Type :=
  mkResource { res_name : string; res_schema : option (list field); res_rows : list dict }.

(** A generator: the values it yields, then the exception it raises, if any. *)
Definition stream := (list dict * option exn)%type.

(** ** [match_fields] *)

Definition match_fields (field_name_re : Regex.compiled) (expected : bool)
    (fld : field) : bool :=
  Bool.eqb (match Regex.fullmatch field_name_re (f_name fld) with
            | Some _ => true
            | None => false
            end) expected.

(** ** [unpivot_rows] *)

Definition row_lookup (row : dict) (k : string) : result value :=
  match dict_get row k with
  | Some v => Ok v
  | None => Err (KeyError k)
  end.

(** [for field in fields_to_keep: new_row[field] = row[field]] *)
Fixpoint set_kept (new_row : dict) (fields_to_keep : list string) (row : dict)
  : result dict :=
  match fields_to_keep with
  | [] => Ok new_row
  | fld :: rest =>
      v <- row_lookup row fld ;; set_kept (dict_set new_row fld v) rest row
  end.

(** The body of the inner loop: the row built for one unpivot field. *)
Definition new_row (unpivot_field : field) (row : dict)
    (fields_to_keep : list string) (extra_value : field) : result dict :=
  nr <- match f_keys unpivot_field with
        | Some ks => Ok ks
        | None => Err (KeyError "keys")
        end ;;
  nr <- set_kept nr fields_to_keep row ;;
  Ok (dict_set nr (f_name extra_value)
         (match dict_get row (f_name unpivot_field) with
          | Some v => v
          | None => VNone
          end)).

Fixpoint unpivot_row (row : dict) (fields_to_unpivot : list field)
    (fields_to_keep : list string) (extra_value : field) : stream :=
  match fields_to_unpivot with
  | [] => ([], None)
  | uf :: ufs =>
      match new_row uf row fields_to_keep extra_value with
      | Err e => ([], Some e)
      | Ok nr =>
          let (out, err) := unpivot_row row ufs fields_to_keep extra_value in
          (nr :: out, err)
      end
  end.

Fixpoint unpivot_rows (rows : list dict) (fields_to_unpivot : list field)
    (fields_to_keep : list string) (extra_value : field) : stream :=
  match rows with
  | [] => ([], None)
  | row :: rows' =>
      match unpivot_row row fields_to_unpivot fields_to_keep extra_value with
      | (out, Some e) => (out, Some e)
      | (out, None) =>
          let (out', err) := unpivot_rows rows' fields_to_unpivot fields_to_keep extra_value in
          (out ++ out', err)
      end
  end.

(** ** The schema resolver *)

Definition resolve_key (field_name_re : Regex.compiled) (fname : string)
    (v : value) : result value :=
  match v with
  | VStr t => s <- Regex.sub field_name_re t fname ;; Ok (VStr s)
  | _ => Ok v
  end.

(** [for key in original_key_values: ... new_key_values[key] = new_val] *)
Fixpoint resolve_keys (field_name_re : Regex.compiled) (fname : string)
    (original_key_values new_key_values : dict) : result dict :=
  match original_key_values with
  | [] => Ok new_key_values
  | (key, v) :: rest =>
      nv <- resolve_key field_name_re fname v ;;
      resolve_keys field_name_re fname rest (dict_set new_key_values key nv)
  end.

(** [field_to_pivot['keys'] = new_key_values] runs inside the loop over the
    keys, so a spec with no keys leaves the descriptor without [keys]. *)
Definition pivot_field (field_name_re : Regex.compiled) (u : ufield)
    (field_to_pivot : field) : result field :=
  match u_keys u with
  | [] => Ok field_to_pivot
  | _ :: _ =>
      nk <- resolve_keys field_name_re (f_name field_to_pivot) (u_keys u) [] ;;
      Ok (mkField (f_name field_to_pivot) (Some nk))
  end.

Fixpoint mapM {A B : Type} (f : A -> result B) (l : list A) : result (list B) :=
  match l with
  | [] => Ok []
  | x :: l' => y <- f x ;; ys <- mapM f l' ;; Ok (y :: ys)
  end.

(** [for u_field in unpivot_fields: ...] for one resource; [acc] is
    [unpivot_fields_without_regex].  Returns the new [acc] and the fields
    left over. *)
Fixpoint resolve_specs (unpivot_fields : list ufield) (fields acc : list field)
  : result (list field * list field) :=
  match unpivot_fields with
  | [] => Ok (acc, fields)
  | u_field :: us =>
      field_name_re <- Regex.compile (u_name u_field) ;;
      let fields_to_pivot := filter (match_fields field_name_re true) fields in
      let fields' := filter (match_fields field_name_re false) fields in
      ps <- mapM (pivot_field field_name_re u_field) fields_to_pivot ;;
      resolve_specs us fields' (acc ++ ps)
  end.

(** ** [unpivot(...)] and its inner [func] *)

Section Unpivot.

Variable unpivot_fields : list ufield.
Variable extra_keys : list field.
Variable extra_value : field.
(** [ResourceMatcher(resources, package.pkg).match], an external collaborator. *)
Variable matcher : string -> bool.

Definition cons_res (r : resource)
    (x : list resource * list field * option (list string)) :=
  match x with (rs, acc, ftk) => (r :: rs, acc, ftk) end.

(** The loop over [package.pkg.descriptor['resources']]: the rewritten
    descriptors, [unpivot_fields_without_regex] and [fields_to_keep]
    ([None] while unassigned). *)
Fixpoint schema_pass (rs : list resource) (acc : list field)
    (fields_to_keep : option (list string))
  : result (list resource * list field * option (list string)) :=
  match rs with
  | [] => Ok ([], acc, fields_to_keep)
  | r :: rs' =>
      if negb (matcher (res_name r)) then
        rest <- schema_pass rs' acc fields_to_keep ;; Ok (cons_res r rest)
      else
        match res_schema r with
        | None => rest <- schema_pass rs' acc fields_to_keep ;; Ok (cons_res r rest)
        | Some fields =>
            pr <- resolve_specs unpivot_fields fields acc ;;
            let (acc', fields') := pr in
            let r' := mkResource (res_name r)
                        (Some (fields' ++ extra_keys ++ [extra_value])) (res_rows r) in
            rest <- schema_pass rs' acc' (Some (map f_name fields')) ;;
            Ok (cons_res r' rest)
        end
  end.

(** The loop [for resource in package]: one stream per resource yielded,
    then the exception that stops [func], if any. *)
Fixpoint row_pass (rs : list resource) (unpivot_fields_without_regex : list field)
    (fields_to_keep : option (list string)) : list stream * option exn :=
  match rs with
  | [] => ([], None)
  | r :: rs' =>
      if negb (matcher (res_name r)) then
        let (ss, e) := row_pass rs' unpivot_fields_without_regex fields_to_keep in
        ((res_rows r, None) :: ss, e)
      else
        match fields_to_keep with
        | None => ([], Some UnboundLocalError)
        | Some ftk =>
            let (ss, e) := row_pass rs' unpivot_fields_without_regex fields_to_keep in
            (unpivot_rows (res_rows r) unpivot_fields_without_regex ftk extra_value :: ss, e)
        end
  end.

(** [func(package)]: [Err e] when it raises before yielding anything;
    otherwise the yielded descriptor, the yielded resource streams and the
    exception raised after them, if any. *)
Definition func (package : list resource)
  : result (list resource * list stream * option exn) :=
  sp <- schema_pass package [] None ;;
  match sp with
  | (desc, ufw, ftk) =>
      let (ss, e) := row_pass package ufw ftk in Ok (desc, ss, e)
  end.

End Unpivot.

Definition unpivot (unpivot_fields : list ufield) (extra_keys : list field)
    (extra_value : field) (matcher : string -> bool) :=
  func unpivot_fields extra_keys extra_value matcher.

(** ** Reference forms used in the statements *)

(** The generator that yields the [Ok] values of a list in order and stops
    at its first [Err]. *)
Fixpoint cut_at_error (l : list (result dict)) : stream :=
  match l with
  | [] => ([], None)
  | Err e :: _ => ([], Some e)
  | Ok d :: l' => let (out, err) := cut_at_error l' in (d :: out, err)
  end.

(** Index of the first spec whose compiled pattern fully matches [f]. *)
Fixpoint first_index (ucs : list (ufield * Regex.compiled)) (f : field) : option nat :=
  match ucs with
  | [] => None
  | uc :: t =>
      if match_fields (snd uc) true f then Some 0
      else option_map S (first_index t f)
  end.

Definition opt_nat_eqb (a b : option nat) : bool :=
  match a, b with
  | Some x, Some y => Nat.eqb x y
  | None, None => true
  | _, _ => false
  end.

(** Spec by spec, in declaration order, the fields whose first matching
    spec is that one, each paired with the spec. *)
Definition resolved_by_first (ucs : list (ufield * Regex.compiled)) (fields : list field)
  : list (field * (ufield * Regex.compiled)) :=
  flat_map (fun i =>
              match nth_error ucs i with
              | Some uc =>
                  map (fun f => (f, uc))
                      (filter (fun f => opt_nat_eqb (first_index ucs f) (Some i)) fields)
              | None => []
              end) (seq 0 (length ucs)).

(** A field no spec of [ufs] fully matches (a spec whose pattern does not
    compile is not counted). *)
Definition unmatched_by (ufs : list ufield) (f : field) : bool :=
  forallb (fun u => match Regex.compile (u_name u) with
                    | Ok cp => negb (match_fields cp true f)
                    | Err _ => true
                    end) ufs.

(** The number of schema fields of [r] that the resolver pivots. *)
Definition pivoted_in (ufs : list ufield) (matcher : string -> bool) (r : resource) : nat :=
  if matcher (res_name r) then
    match res_schema r with
    | Some fields => length fields - length (filter (unmatched_by ufs) fields)
    | None => 0
    end
  else 0.

(** ** Concrete packages *)

Open Scope string_scope.
Open Scope list_scope.

Module Fixtures.

Definition fld (n : string) : field := mkField n None.
Definition amount : field := fld "amount".
Definition all_tables : string -> bool := fun _ => true.
Definition no_tables : string -> bool := fun _ => false.

(** The table [sales] of the spec's scenario. *)
Definition sales : resource :=
  mkResource "sales" (Some [fld "region"; fld "q1"; fld "q2"; fld "q3"])
    [[("region", VStr "east"); ("q1", VInt 10); ("q2", VInt 20); ("q3", VInt 30)]].

(** [{name: "q(\d)", keys: {quarter: "$1"}}] and the same with [\1]. *)
Definition spec_dollar : ufield := mkUField "q(\d)" [("quarter", VStr "$1")].
Definition spec_backslash : ufield := mkUField "q(\d)" [("quarter", VStr "\1")].

Definition sales1 : resource :=
  mkResource "sales" (Some [fld "region"; fld "q1"])
    [[("region", VStr "east"); ("q1", VInt 10)]].
Definition notes : resource :=
  mkResource "notes" None [[("region", VStr "west"); ("memo", VStr "x")]].

Definition spec_x : ufield := mkUField "x(\d)" [("k", VStr "\1")].
Definition table_a : resource :=
  mkResource "a" (Some [fld "id"; fld "x1"; fld "x2"])
    [[("id", VInt 1); ("x1", VInt 11); ("x2", VInt 12)]].
Definition table_b : resource :=
  mkResource "b" (Some [fld "id"; fld "x3"]) [[("id", VInt 2); ("x3", VInt 23)]].

Definition stream_at (out : result (list resource * list stream * option exn)) (i : nat)
  : option stream :=
  match out with
  | Ok (_, ss, _) => nth_error ss i
  | Err _ => None
  end.

Definition schema_names_at (out : result (list resource * list stream * option exn))
    (i : nat) : option (list string) :=
  match out with
  | Ok (desc, _, _) =>
      match nth_error desc i with
      | Some r => option_map (map f_name) (res_schema r)
      | None => None
      end
  | Err _ => None
  end.

(** The compiled pattern of a spec (a placeholder when it does not compile). *)
Definition cp_of (u : ufield) : Regex.compiled :=
  match Regex.compile (u_name u) with
  | Ok cp => cp
  | Err _ => Regex.mkCompiled Regex.REps 0
  end.

Definition spec_x1 : ufield := mkUField "x1" [("k", VStr "one")].

Definition other : resource := mkResource "other" None [[("a", VInt 1)]].
Definition sales_only : string -> bool := fun n => String.eqb n "sales".
Definition pkg_w : list resource := [sales1; other].

Definition desc_w : list resource :=
  [mkResource "sales" (Some [fld "region"; amount]) (res_rows sales1); other].
Definition ss_w : list stream :=
  [([[("quarter", VStr "1"); ("region", VStr "east"); ("amount", VInt 10)]], None);
   (res_rows other, None)].
Definition desc_no_specs : list resource :=
  [mkResource "sales" (Some [fld "region"; fld "q1"; amount]) (res_rows sales1); other].
Definition fields_w : list field := [fld "id"; fld "x1"; fld "x2"].
Definition pivots_w : list field :=
  [mkField "x1" (Some [("k", VStr "1")]); mkField "x2" (Some [("k", VStr "2")])].
Definition q1_pivot : field := mkField "q1" (Some [("quarter", VStr "1")]).
Definition spec_x_nokeys : ufield := mkUField "x(\d)" [].

End Fixtures.

(** ** Lemmas on the row expander *)

Lemma unpivot_row_cut : forall row P keep ev,
  unpivot_row row P keep ev = cut_at_error (map (fun p => new_row p row keep ev) P).
Proof.
  intros row P keep ev; induction P as [|p P IH]; simpl; [reflexivity|].
  destruct (new_row p row keep ev); [rewrite IH|]; reflexivity.
Qed.

Lemma cut_at_error_app : forall l1 l2,
  cut_at_error (l1 ++ l2) =
  match cut_at_error l1 with
  | (o, Some e) => (o, Some e)
  | (o, None) => let (o2, e2) := cut_at_error l2 in (o ++ o2, e2)
  end.
Proof.
  induction l1 as [|x l1 IH]; intros l2; simpl.
  - destruct (cut_at_error l2); reflexivity.
  - destruct x as [d|e]; [|reflexivity].
    rewrite IH. destruct (cut_at_error l1) as [o [e|]]; [reflexivity|].
    destruct (cut_at_error l2); reflexivity.
Qed.

Lemma unpivot_rows_cut : forall rows P keep ev,
  unpivot_rows rows P keep ev =
  cut_at_error (flat_map (fun row => map (fun p => new_row p row keep ev) P) rows).
Proof.
  induction rows as [|row rows IH]; intros P keep ev; simpl; [reflexivity|].
  rewrite cut_at_error_app, <- unpivot_row_cut, IH.
  destruct (unpivot_row row P keep ev) as [o [e|]]; reflexivity.
Qed.

Lemma in_cut_at_error : forall l d, In d (fst (cut_at_error l)) -> In (Ok d) l.
Proof.
  induction l as [|x l IH]; intros d H; simpl in *; [contradiction|].
  destruct x as [d'|e]; simpl in H; [|contradiction].
  specialize (IH d).
  destruct (cut_at_error l) as [o err]; simpl in H, IH.
  destruct H as [H|H]; [left; congruence|].
  right; apply IH; exact H.
Qed.

Lemma dict_keys_set : forall d k v x,
  In x (dict_keys (dict_set d k v)) <-> In x (dict_keys d) \/ x = k.
Proof.
  induction d as [|[k' v'] d IH]; intros k v x; simpl.
  - firstorder congruence.
  - destruct (String.eqb k' k) eqn:E; simpl.
    + apply String.eqb_eq in E; subst; firstorder congruence.
    + rewrite IH; tauto.
Qed.

Lemma dict_get_set_same : forall d k v, dict_get (dict_set d k v) k = Some v.
Proof.
  induction d as [|[k' v'] d IH]; intros k v; simpl.
  - rewrite String.eqb_refl; reflexivity.
  - destruct (String.eqb k' k) eqn:E; simpl; rewrite ?E; [reflexivity|apply IH].
Qed.

Lemma set_kept_keys : forall keep d row d',
  set_kept d keep row = Ok d' ->
  forall x, In x (dict_keys d') <-> In x (dict_keys d) \/ In x keep.
Proof.
  induction keep as [|k keep IH]; intros d row d' H x; simpl in *.
  - injection H as <-; tauto.
  - unfold row_lookup in H; destruct (dict_get row k) as [v|]; simpl in H;
      [|discriminate].
    rewrite (IH _ _ _ H x), dict_keys_set; firstorder congruence.
Qed.

Lemma set_kept_missing : forall keep d row k,
  In k keep -> dict_get row k = None -> exists k', set_kept d keep row = Err (KeyError k').
Proof.
  induction keep as [|k0 keep IH]; intros d row k Hin Hget; simpl in *; [contradiction|].
  unfold row_lookup; destruct (dict_get row k0) as [v|] eqn:E; simpl.
  - destruct Hin as [<-|Hin]; [congruence|]. eapply IH; eauto.
  - eexists; reflexivity.
Qed.

Lemma set_kept_present : forall keep d row,
  (forall k, In k keep -> dict_get row k <> None) -> exists d', set_kept d keep row = Ok d'.
Proof.
  induction keep as [|k keep IH]; intros d row H; simpl; [eexists; reflexivity|].
  unfold row_lookup; destruct (dict_get row k) as [v|] eqn:E; simpl.
  - apply IH; intros; apply H; right; assumption.
  - exfalso; apply (H k); [left; reflexivity|exact E].
Qed.

Lemma new_row_keys : forall p row keep ev d,
  new_row p row keep ev = Ok d ->
  exists ks, f_keys p = Some ks /\
    forall x, In x (dict_keys d) <-> In x (dict_keys ks) \/ In x keep \/ x = f_name ev.
Proof.
  intros p row keep ev d H; unfold new_row in H.
  destruct (f_keys p) as [ks|]; simpl in H; [|discriminate].
  exists ks; split; [reflexivity|].
  destruct (set_kept ks keep row) as [d1|e] eqn:E; simpl in H; [|discriminate].
  injection H as <-; intros x.
  rewrite dict_keys_set, (set_kept_keys _ _ _ _ E x); tauto.
Qed.

(** ** Claims on the row expander *)

Import Fixtures.

(** C6: the rows generated from one input row, one per resolved pivot
    field, come consecutively and in the order of the pivot-field list, and
    input rows are expanded in stream order: the output stream is the
    concatenation, row by row, of the rows built for each pivot field, cut
    at the first exception. *)
Theorem C6_unpivot_rows_order : forall rows fields_to_unpivot fields_to_keep extra_value,
  unpivot_rows rows fields_to_unpivot fields_to_keep extra_value =
  cut_at_error (flat_map (fun row => map (fun p => new_row p row fields_to_keep extra_value)
                                         fields_to_unpivot) rows).
Proof. exact unpivot_rows_cut. Qed.

(** C4 (amended): every row yielded by [unpivot_rows] was built for some
    pivot field of the list, and its field names are exactly the key names
    of that pivot field's resolved [keys], the names of [fields_to_keep] and
    the name of [extra_value]. *)
Theorem C4_row_field_names : forall rows P fields_to_keep extra_value d,
  In d (fst (unpivot_rows rows P fields_to_keep extra_value)) ->
  exists p ks, In p P /\ f_keys p = Some ks /\
    forall x, In x (dict_keys d) <->
              In x (dict_keys ks) \/ In x fields_to_keep \/ x = f_name extra_value.
Proof.
  intros rows P keep ev d H.
  rewrite unpivot_rows_cut in H.
  apply in_cut_at_error, in_flat_map in H.
  destruct H as [row [_ Hrow]].
  apply in_map_iff in Hrow; destruct Hrow as [p [Hp HinP]].
  destruct (new_row_keys _ _ _ _ _ Hp) as [ks [Hks Hx]].
  exists p, ks; auto.
Qed.

Lemma C4_row_field_names_witness :
  In [("quarter", VStr "1"); ("region", VStr "east"); ("amount", VInt 10)]
     (fst (unpivot_rows [[("region", VStr "east"); ("q1", VInt 10)]]
                        [mkField "q1" (Some [("quarter", VStr "1")])] ["region"] amount))
  /\ exists p ks, In p [mkField "q1" (Some [("quarter", VStr "1")])] /\ f_keys p = Some ks /\
    forall x, In x (dict_keys [("quarter", VStr "1"); ("region", VStr "east"); ("amount", VInt 10)]) <->
              In x (dict_keys ks) \/ In x ["region"] \/ x = f_name amount.
Proof.
  split.
  - simpl; left; reflexivity.
  - apply (C4_row_field_names [[("region", VStr "east"); ("q1", VInt 10)]]).
    simpl; left; reflexivity.
Defined.

(** C4 counterexample: with [extraKeys = [{name: "year"}]] and a spec with
    key [quarter], the row yielded for [sales1] has the field [quarter],
    which is neither kept nor an extra key, and lacks the extra key [year]. *)
Lemma C4_extra_keys_counterexample :
  stream_at (unpivot [spec_backslash] [fld "year"] amount all_tables [sales1]) 0
  = Some ([[("quarter", VStr "1"); ("region", VStr "east"); ("amount", VInt 10)]], None)
  /\ ~ In "quarter" (["region"] ++ map f_name [fld "year"] ++ [f_name amount])
  /\ ~ In "year" (dict_keys [("quarter", VStr "1"); ("region", VStr "east"); ("amount", VInt 10)]).
Proof.
  split; [vm_compute; reflexivity|].
  split; simpl; intuition discriminate.
Qed.

Lemma new_row_missing_kept : forall p row keep ev k,
  In k keep -> dict_get row k = None -> exists k', new_row p row keep ev = Err (KeyError k').
Proof.
  intros p row keep ev k Hin Hget; unfold new_row.
  destruct (f_keys p) as [ks|]; simpl; [|eexists; reflexivity].
  destruct (set_kept_missing keep ks row k Hin Hget) as [k' Hk]; rewrite Hk.
  exists k'; reflexivity.
Qed.

(** C10 (amended): with a non-empty pivot-field list, an input row that
    lacks a name of [fields_to_keep] ends the stream with a [KeyError]
    right after the rows of the earlier input rows, before any row is built
    from it; the pivoted field itself is read with [row.get], so when it is
    absent (and the kept fields are present) the value field is [None]. *)
Theorem C10_kept_lookup_strict :
  (forall pre row rest P keep ev k,
     P <> [] -> In k keep -> dict_get row k = None ->
     snd (unpivot_rows pre P keep ev) = None ->
     exists k', unpivot_rows (pre ++ row :: rest) P keep ev
                = (fst (unpivot_rows pre P keep ev), Some (KeyError k')))
  /\ (forall p row keep ev ks,
        f_keys p = Some ks -> (forall k, In k keep -> dict_get row k <> None) ->
        dict_get row (f_name p) = None ->
        exists d, new_row p row keep ev = Ok d /\ dict_get d (f_name ev) = Some VNone).
Proof.
  split.
  - intros pre row rest P keep ev k HP Hin Hget.
    induction pre as [|r0 pre IH]; intros Hpre; simpl.
    + destruct P as [|p P]; [congruence|]; simpl.
      destruct (new_row_missing_kept p row keep ev k Hin Hget) as [k' Hk].
      rewrite Hk; exists k'; reflexivity.
    + simpl in Hpre.
      destruct (unpivot_row r0 P keep ev) as [o [e|]]; [discriminate|].
      destruct (unpivot_rows pre P keep ev) as [o' err'] eqn:E; simpl in *.
      destruct (IH Hpre) as [k' Hk]; rewrite Hk; subst err'.
      exists k'; reflexivity.
  - intros p row keep ev ks Hks Hkeep Hget; unfold new_row; rewrite Hks; simpl.
    destruct (set_kept_present keep ks row Hkeep) as [d' Hd']; rewrite Hd'; simpl.
    rewrite Hget; eexists; split; [reflexivity|apply dict_get_set_same].
Qed.

Lemma C10_kept_lookup_strict_witness :
  (exists k', unpivot_rows ([] ++ [("q1", VInt 1)] :: [])
                [mkField "q1" (Some [("quarter", VStr "1")])] ["region"] amount
              = (fst (unpivot_rows [] [mkField "q1" (Some [("quarter", VStr "1")])]
                                   ["region"] amount), Some (KeyError k')))
  /\ (exists d, new_row (mkField "q1" (Some [("quarter", VStr "1")])) [("region", VStr "east")]
                        ["region"] amount = Ok d /\ dict_get d (f_name amount) = Some VNone).
Proof.
  split.
  - apply (proj1 C10_kept_lookup_strict [] [("q1", VInt 1)] [] _ ["region"] amount "region").
    + discriminate.
    + left; reflexivity.
    + reflexivity.
    + reflexivity.
  - apply (proj2 C10_kept_lookup_strict _ _ ["region"] amount [("quarter", VStr "1")]).
    + reflexivity.
    + intros k [<-|[]]; simpl; discriminate.
    + reflexivity.
Defined.

(** C10 counterexample: with no resolved pivot field, a row lacking the
    kept field [region] raises nothing; it just yields no row. *)
Lemma C10_empty_pivots_counterexample :
  unpivot_rows [[("q1", VInt 1)]] [] ["region"] amount = ([], None)
  /\ dict_get [("q1", VInt 1)] "region" = None.
Proof. split; reflexivity. Qed.

(** ** Claims on the whole processor *)

(** C1 (code bug): a matched table without schema is skipped by the schema
    pass but its rows are still handed to [unpivot_rows]: the row of
    [notes] is expanded with the pivot fields and kept fields of [sales1];
    with no matched table that has a schema, [fields_to_keep] is never
    assigned and [func] raises [UnboundLocalError]. *)
Theorem C1_schemaless_table_rows_expanded :
  stream_at (unpivot [spec_backslash] [] amount all_tables [sales1; notes]) 1
  = Some ([[("quarter", VStr "1"); ("region", VStr "west"); ("amount", VNone)]], None)
  /\ unpivot [spec_backslash] [] amount all_tables [notes]
     = Ok ([notes], [], Some UnboundLocalError).
Proof. split; vm_compute; reflexivity. Qed.

(** C2 (code bug): [unpivot_fields_without_regex] accumulates over all
    matched tables and [fields_to_keep] is the last table's, so with two
    matched tables each table's row is expanded with all three pivot
    fields, while its own schema has two ([a]) and one ([b]). *)
Theorem C2_pivot_list_shared_across_tables :
  match resolve_specs [spec_x] [fld "id"; fld "x1"; fld "x2"] [] with
  | Ok (P, _) => length P | Err _ => 0 end = 2
  /\ match resolve_specs [spec_x] [fld "id"; fld "x3"] [] with
     | Ok (P, _) => length P | Err _ => 0 end = 1
  /\ option_map (fun s => length (fst s))
       (stream_at (unpivot [spec_x] [] amount all_tables [table_a; table_b]) 0) = Some 3
  /\ option_map (fun s => length (fst s))
       (stream_at (unpivot [spec_x] [] amount all_tables [table_a; table_b]) 1) = Some 3.
Proof. repeat split; vm_compute; reflexivity. Qed.

(** C3 counterexample: in Python's replacement templates [$1] is not a
    back-reference, so the key of [q_1] resolves to the literal ["$1"]. *)
Lemma C3_dollar_template_counterexample :
  resolve_specs [mkUField "q_(\d+)" [("quarter", VStr "$1")]] [fld "q_1"] []
  = Ok ([mkField "q_1" (Some [("quarter", VStr "$1")])], [])
  /\ VStr "$1" <> VStr "1".
Proof. split; [vm_compute; reflexivity | discriminate]. Qed.

(** C3 (amended): with the template [\1] the field [q_1] of the pattern
    [q_(\d+)] resolves with keys exactly [{quarter: "1"}]; with [$1] it
    resolves with keys [{quarter: "$1"}]. *)
Theorem C3_backreference_template :
  resolve_specs [mkUField "q_(\d+)" [("quarter", VStr "\1")]] [fld "q_1"] []
  = Ok ([mkField "q_1" (Some [("quarter", VStr "1")])], [])
  /\ resolve_specs [mkUField "q_(\d+)" [("quarter", VStr "$1")]] [fld "q_1"] []
     = Ok ([mkField "q_1" (Some [("quarter", VStr "$1")])], []).
Proof. split; vm_compute; reflexivity. Qed.

(** C5 counterexample: the scenario as configured yields [quarter: "$1"]
    rows and the schema [region, amount]. *)
Lemma C5_scenario_counterexample :
  stream_at (unpivot [spec_dollar] [] amount all_tables [sales]) 0
  <> Some ([[("quarter", VStr "1"); ("region", VStr "east"); ("amount", VInt 10)];
            [("quarter", VStr "2"); ("region", VStr "east"); ("amount", VInt 20)];
            [("quarter", VStr "3"); ("region", VStr "east"); ("amount", VInt 30)]], None)
  /\ schema_names_at (unpivot [spec_dollar] [] amount all_tables [sales]) 0
     <> Some ["region"; "quarter"; "amount"].
Proof. split; vm_compute; discriminate. Qed.

(** C5 (amended): the scenario yields three rows with [quarter: "$1"] and
    amounts 10, 20, 30; with the template [\1] the quarters are "1", "2",
    "3"; either way the rewritten schema is [region, amount] since no extra
    key is configured. *)
Theorem C5_scenario :
  unpivot [spec_dollar] [] amount all_tables [sales]
  = Ok ([mkResource "sales" (Some [fld "region"; amount]) (res_rows sales)],
        [([[("quarter", VStr "$1"); ("region", VStr "east"); ("amount", VInt 10)];
           [("quarter", VStr "$1"); ("region", VStr "east"); ("amount", VInt 20)];
           [("quarter", VStr "$1"); ("region", VStr "east"); ("amount", VInt 30)]], None)],
        None)
  /\ stream_at (unpivot [spec_backslash] [] amount all_tables [sales]) 0
     = Some ([[("quarter", VStr "1"); ("region", VStr "east"); ("amount", VInt 10)];
              [("quarter", VStr "2"); ("region", VStr "east"); ("amount", VInt 20)];
              [("quarter", VStr "3"); ("region", VStr "east"); ("amount", VInt 30)]], None)
  /\ schema_names_at (unpivot [spec_backslash] [] amount all_tables [sales]) 0
     = Some ["region"; "amount"].
Proof. repeat split; vm_compute; reflexivity. Qed.

(** ** Lemmas on the schema resolver *)

Lemma match_fields_false : forall cp f,
  match_fields cp false f = negb (match_fields cp true f).
Proof.
  intros cp f; unfold match_fields.
  destruct (Regex.fullmatch cp (f_name f)); reflexivity.
Qed.

Lemma mapM_app : forall {A B : Type} (g : A -> result B) l1 l2,
  mapM g (l1 ++ l2) = (x <- mapM g l1 ;; y <- mapM g l2 ;; Ok (x ++ y)).
Proof.
  intros A B g l1 l2; induction l1 as [|a l1 IH]; simpl.
  - destruct (mapM g l2); reflexivity.
  - destruct (g a) as [b|e]; simpl; [|reflexivity].
    rewrite IH. destruct (mapM g l1); simpl; [|reflexivity].
    destruct (mapM g l2); reflexivity.
Qed.

Lemma mapM_map : forall {A B C : Type} (g : B -> result C) (h : A -> B) l,
  mapM g (map h l) = mapM (fun a => g (h a)) l.
Proof.
  intros A B C g h l; induction l as [|a l IH]; simpl; [reflexivity|].
  rewrite IH; reflexivity.
Qed.

Lemma filter_compose : forall {A : Type} (p q r : A -> bool) l,
  (forall x, p x = q x && r x) -> filter p l = filter r (filter q l).
Proof.
  intros A p q r l H; induction l as [|a l IH]; simpl; [reflexivity|].
  rewrite H, IH; destruct (q a); simpl; reflexivity.
Qed.

Lemma flat_map_shift : forall {B : Type} (g : nat -> list B) start len,
  flat_map g (seq (S start) len) = flat_map (fun i => g (S i)) (seq start len).
Proof.
  intros B g start len; revert start; induction len as [|len IH]; intros start;
    simpl; [reflexivity|].
  rewrite IH; reflexivity.
Qed.

Lemma resolved_by_first_cons : forall uc t fields,
  resolved_by_first (uc :: t) fields =
  map (fun f => (f, uc)) (filter (match_fields (snd uc) true) fields)
  ++ resolved_by_first t (filter (match_fields (snd uc) false) fields).
Proof.
  intros uc t fields; unfold resolved_by_first; simpl length.
  rewrite <- cons_seq; simpl flat_map at 1. f_equal.
  - f_equal. apply filter_ext; intros f; simpl.
    destruct (match_fields (snd uc) true f); [reflexivity|].
    destruct (first_index t f); reflexivity.
  - rewrite flat_map_shift; apply flat_map_ext; intros i; simpl.
    destruct (nth_error t i) as [uc'|]; [|reflexivity].
    f_equal. apply filter_compose; intros f; simpl.
    rewrite match_fields_false.
    destruct (match_fields (snd uc) true f); simpl; [reflexivity|].
    destruct (first_index t f); reflexivity.
Qed.

Lemma remaining_cons : forall uc t fields,
  filter (fun f => opt_nat_eqb (first_index (uc :: t) f) None) fields =
  filter (fun f => opt_nat_eqb (first_index t f) None)
         (filter (match_fields (snd uc) false) fields).
Proof.
  intros uc t fields; apply filter_compose; intros f; simpl.
  rewrite match_fields_false.
  destruct (match_fields (snd uc) true f); simpl; [reflexivity|].
  destruct (first_index t f); reflexivity.
Qed.

Lemma filter_true : forall {A : Type} (l : list A), filter (fun _ => true) l = l.
Proof. intros A l; induction l; simpl; congruence. Qed.

(** C7: specs are applied in declaration order to a shrinking working
    list, so each field is resolved exactly once, by the first spec that
    fully matches it and with that spec's keys; the pivot fields come spec
    by spec in field order after those of earlier tables, and the fields
    matched by no spec are the ones kept. *)
Theorem C7_first_spec_resolves : forall ucs fields acc,
  Forall (fun uc => Regex.compile (u_name (fst uc)) = Ok (snd uc)) ucs ->
  resolve_specs (map fst ucs) fields acc =
  (ps <- mapM (fun fuc => pivot_field (snd (snd fuc)) (fst (snd fuc)) (fst fuc))
              (resolved_by_first ucs fields) ;;
   Ok (acc ++ ps, filter (fun f => opt_nat_eqb (first_index ucs f) None) fields)).
Proof.
  induction ucs as [|[u cp] t IH]; intros fields acc HF.
  - unfold resolved_by_first; simpl. rewrite app_nil_r, filter_true; reflexivity.
  - inversion HF as [|? ? Hc Ht]; subst; simpl in Hc.
    rewrite resolved_by_first_cons, remaining_cons, mapM_app, mapM_map.
    cbn [map fst snd resolve_specs]; rewrite Hc; cbn [bind].
    destruct (mapM (pivot_field cp u) (filter (match_fields cp true) fields))
      as [ps|e]; simpl; [|reflexivity].
    rewrite (IH _ _ Ht).
    destruct (mapM _ (resolved_by_first t _)) as [ps2|e]; simpl; [|reflexivity].
    rewrite app_assoc; reflexivity.
Qed.

Lemma C7_first_spec_resolves_witness :
  Forall (fun uc => Regex.compile (u_name (fst uc)) = Ok (snd uc))
         [(spec_x, cp_of spec_x); (spec_x1, cp_of spec_x1)]
  /\ resolve_specs [spec_x; spec_x1] [fld "id"; fld "x1"; fld "x2"] [] =
     (ps <- mapM (fun fuc => pivot_field (snd (snd fuc)) (fst (snd fuc)) (fst fuc))
                 (resolved_by_first [(spec_x, cp_of spec_x); (spec_x1, cp_of spec_x1)]
                                    [fld "id"; fld "x1"; fld "x2"]) ;;
      Ok ([] ++ ps, filter (fun f => opt_nat_eqb
                                      (first_index [(spec_x, cp_of spec_x); (spec_x1, cp_of spec_x1)] f)
                                      None) [fld "id"; fld "x1"; fld "x2"])).
Proof.
  assert (HF : Forall (fun uc => Regex.compile (u_name (fst uc)) = Ok (snd uc))
                      [(spec_x, cp_of spec_x); (spec_x1, cp_of spec_x1)])
    by (repeat constructor; vm_compute; reflexivity).
  split; [exact HF|].
  exact (C7_first_spec_resolves [(spec_x, cp_of spec_x); (spec_x1, cp_of spec_x1)]
           [fld "id"; fld "x1"; fld "x2"] [] HF).
Defined.

(** On the witness's input the field [x1], matched by both specs, is
    resolved once, by [x(\d)], with [k = "1"]. *)
Example resolve_overlapping_specs :
  resolve_specs [spec_x; spec_x1] [fld "id"; fld "x1"; fld "x2"] []
  = Ok ([mkField "x1" (Some [("k", VStr "1")]); mkField "x2" (Some [("k", VStr "2")])],
        [fld "id"]).
Proof. vm_compute; reflexivity. Qed.

(** C8: a field is picked by [match_fields re True] exactly when some way
    of matching the pattern from the start of the name ends at the end of
    the name: a match of a proper prefix or of an inner substring does not
    select it. *)
Theorem C8_fullmatch_selection : forall (cp : Regex.compiled) (f : field),
  match_fields cp true f = true <->
  exists c, In (length (list_ascii_of_string (f_name f)), c)
               (Regex.m (Regex.c_re cp) (list_ascii_of_string (f_name f)) 0 []).
Proof.
  intros cp f; unfold match_fields, Regex.fullmatch.
  set (s := list_ascii_of_string (f_name f)).
  destruct (find (fun jc => Nat.eqb (fst jc) (length s)) (Regex.m (Regex.c_re cp) s 0 []))
    as [[j c]|] eqn:E; simpl.
  - split; [|reflexivity]; intros _.
    apply find_some in E; destruct E as [Hin Hj]; simpl in Hj.
    apply Nat.eqb_eq in Hj; subst j; exists c; exact Hin.
  - split; [discriminate|]; intros [c Hin].
    pose proof (find_none _ _ E _ Hin) as H; simpl in H.
    rewrite Nat.eqb_refl in H; discriminate.
Qed.

(** A search would find [q] inside [q1]; the full match does not. *)
Example partial_match_not_selected :
  Regex.m (Regex.c_re (cp_of (mkUField "q" []))) (list_ascii_of_string "q1") 0 [] = [(1, [])]
  /\ match_fields (cp_of (mkUField "q" [])) true (fld "q1") = false.
Proof. split; vm_compute; reflexivity. Qed.

(** ** Lemmas on configuration errors *)

Lemma resolve_specs_invalid : forall ufs u e0,
  In u ufs -> Regex.compile (u_name u) = Err e0 ->
  forall fields acc, exists e, resolve_specs ufs fields acc = Err e.
Proof.
  induction ufs as [|u' ufs IH]; intros u e0 Hin Hc fields acc; [contradiction|].
  destruct Hin as [<-|Hin]; simpl.
  - rewrite Hc; eexists; reflexivity.
  - destruct (Regex.compile (u_name u')) as [cp|e]; simpl; [|eexists; reflexivity].
    destruct (mapM (pivot_field cp u') _) as [ps|e]; simpl; [|eexists; reflexivity].
    eapply IH; eauto.
Qed.

Lemma schema_pass_invalid : forall ufs ek ev matcher u e0,
  In u ufs -> Regex.compile (u_name u) = Err e0 ->
  forall pkg, (exists r, In r pkg /\ matcher (res_name r) = true /\ res_schema r <> None) ->
  forall acc ftk, exists e, schema_pass ufs ek ev matcher pkg acc ftk = Err e.
Proof.
  intros ufs ek ev matcher u e0 Hin Hc pkg.
  induction pkg as [|r pkg IH]; intros [r' [Hr' [Hm Hs]]] acc ftk; [contradiction|].
  simpl. destruct (matcher (res_name r)) eqn:M; simpl.
  - destruct (res_schema r) as [fields|] eqn:S.
    + destruct (resolve_specs_invalid ufs u e0 Hin Hc fields acc) as [e He].
      rewrite He; eexists; reflexivity.
    + destruct Hr' as [<-|Hr']; [congruence|].
      destruct (IH (ex_intro _ r' (conj Hr' (conj Hm Hs))) acc ftk) as [e He].
      rewrite He; eexists; reflexivity.
  - destruct Hr' as [<-|Hr']; [congruence|].
    destruct (IH (ex_intro _ r' (conj Hr' (conj Hm Hs))) acc ftk) as [e He].
    rewrite He; eexists; reflexivity.
Qed.

Lemma schema_pass_err_target : forall ufs ek ev matcher pkg acc ftk e,
  schema_pass ufs ek ev matcher pkg acc ftk = Err e ->
  exists r, In r pkg /\ matcher (res_name r) = true /\ res_schema r <> None.
Proof.
  intros ufs ek ev matcher pkg; induction pkg as [|r pkg IH]; intros acc ftk e H;
    simpl in H; [discriminate|].
  destruct (matcher (res_name r)) eqn:M; simpl in H.
  - destruct (res_schema r) as [fields|] eqn:S.
    + exists r; split; [left; reflexivity|]; split; [exact M|congruence].
    + destruct (schema_pass ufs ek ev matcher pkg acc ftk) eqn:E; simpl in H;
        [discriminate|].
      destruct (IH _ _ _ E) as [r' [? ?]]; exists r'; split; [right|]; assumption.
  - destruct (schema_pass ufs ek ev matcher pkg acc ftk) eqn:E; simpl in H;
      [discriminate|].
    destruct (IH _ _ _ E) as [r' [? ?]]; exists r'; split; [right|]; assumption.
Qed.

Lemma func_err_iff : forall ufs ek ev matcher pkg,
  (exists e, func ufs ek ev matcher pkg = Err e) <->
  (exists e, schema_pass ufs ek ev matcher pkg [] None = Err e).
Proof.
  intros; unfold func.
  destruct (schema_pass ufs ek ev matcher pkg [] None) as [[[desc ufw] ftk]|e]; simpl.
  - destruct (row_pass ev matcher pkg ufw ftk).
    split; intros [e H]; discriminate.
  - split; intros _; exists e; reflexivity.
Qed.

(** C9 (amended): when some spec's pattern is invalid, [func] raises before
    yielding anything (not even the package descriptor) exactly when some
    matched table has a schema: patterns are compiled only while resolving
    such tables. *)
Theorem C9_invalid_pattern_raises : forall ufs ek ev matcher pkg u,
  In u ufs -> Regex.compile (u_name u) = Err ReError ->
  ((exists e, unpivot ufs ek ev matcher pkg = Err e) <->
   exists r, In r pkg /\ matcher (res_name r) = true /\ res_schema r <> None).
Proof.
  intros ufs ek ev matcher pkg u Hin Hc; unfold unpivot; rewrite func_err_iff.
  split.
  - intros [e He]; eapply schema_pass_err_target; exact He.
  - intros Hex; eapply schema_pass_invalid; eauto.
Qed.

Lemma C9_invalid_pattern_raises_witness :
  In (mkUField "(" []) [mkUField "(" []]
  /\ Regex.compile (u_name (mkUField "(" [])) = Err ReError
  /\ ((exists e, unpivot [mkUField "(" []] [] amount all_tables [sales] = Err e) <->
      exists r, In r [sales] /\ all_tables (res_name r) = true /\ res_schema r <> None).
Proof.
  assert (Hin : In (mkUField "(" []) [mkUField "(" []]) by (left; reflexivity).
  assert (Hc : Regex.compile (u_name (mkUField "(" [])) = Err ReError)
    by (vm_compute; reflexivity).
  split; [exact Hin|]; split; [exact Hc|].
  exact (C9_invalid_pattern_raises [mkUField "(" []] [] amount all_tables [sales] _ Hin Hc).
Defined.

(** C9 counterexample: the invalid pattern ["("] raises nothing when no
    table is matched; every table is passed through. *)
Lemma C9_unmatched_invalid_pattern_counterexample :
  Regex.compile "(" = Err ReError
  /\ unpivot [mkUField "(" []] [] amount no_tables [sales]
     = Ok ([sales], [(res_rows sales, None)], None).
Proof. split; vm_compute; reflexivity. Qed.

(** ** Further properties of the schema resolver *)

Lemma mapM_length : forall {A B : Type} (g : A -> result B) l l',
  mapM g l = Ok l' -> length l' = length l.
Proof.
  intros A B g l; induction l as [|a l IH]; intros l' H; simpl in H.
  - injection H as <-; reflexivity.
  - destruct (g a) as [b|e]; simpl in H; [|discriminate].
    destruct (mapM g l) as [bs|e] eqn:E; simpl in H; [|discriminate].
    injection H as <-; simpl; rewrite (IH _ eq_refl); reflexivity.
Qed.

Lemma mapM_in : forall {A B : Type} (g : A -> result B) l l',
  mapM g l = Ok l' -> forall y, In y l' -> exists x, In x l /\ g x = Ok y.
Proof.
  intros A B g l; induction l as [|a l IH]; intros l' H y Hy; simpl in H.
  - injection H as <-; contradiction.
  - destruct (g a) as [b|e] eqn:Ga; simpl in H; [|discriminate].
    destruct (mapM g l) as [bs|e] eqn:E; simpl in H; [|discriminate].
    injection H as <-; destruct Hy as [<-|Hy].
    + exists a; split; [left; reflexivity|exact Ga].
    + destruct (IH _ eq_refl y Hy) as [x [? ?]]; exists x; split; [right|]; assumption.
Qed.

Lemma filter_partition_length : forall cp (l : list field),
  length (filter (match_fields cp true) l) + length (filter (match_fields cp false) l)
  = length l.
Proof.
  intros cp l; induction l as [|f l IH]; simpl; [reflexivity|].
  rewrite match_fields_false; destruct (match_fields cp true f); simpl; lia.
Qed.

(** X1: the fields a matched table keeps are exactly its schema fields that
    no spec fully matches, in schema order. *)
Theorem resolve_specs_remaining : forall ufs fields acc P R,
  resolve_specs ufs fields acc = Ok (P, R) -> R = filter (unmatched_by ufs) fields.
Proof.
  induction ufs as [|u ufs IH]; intros fields acc P R H; simpl in H.
  - injection H as _ <-. unfold unmatched_by; simpl; rewrite filter_true; reflexivity.
  - destruct (Regex.compile (u_name u)) as [cp|e] eqn:C; simpl in H; [|discriminate].
    destruct (mapM (pivot_field cp u) _) as [ps|e]; simpl in H; [|discriminate].
    rewrite (IH _ _ _ _ H). symmetry; apply filter_compose; intros f.
    unfold unmatched_by; simpl; rewrite C, match_fields_false; reflexivity.
Qed.

(** X2: the resolver only appends to the pivot list it is given, and every
    schema field is either pivoted or kept: the appended pivot fields and
    the kept fields together number the schema's fields. *)
Theorem resolve_specs_conservation : forall ufs fields acc P R,
  resolve_specs ufs fields acc = Ok (P, R) ->
  exists ps, P = acc ++ ps /\ length ps + length R = length fields.
Proof.
  induction ufs as [|u ufs IH]; intros fields acc P R H; simpl in H.
  - injection H as <- <-; exists []; rewrite app_nil_r; split; reflexivity.
  - destruct (Regex.compile (u_name u)) as [cp|e]; simpl in H; [|discriminate].
    destruct (mapM (pivot_field cp u) _) as [ps1|e] eqn:M; simpl in H; [|discriminate].
    destruct (IH _ _ _ _ H) as [ps2 [-> Hl]].
    exists (ps1 ++ ps2); split; [rewrite app_assoc; reflexivity|].
    rewrite length_app, (mapM_length _ _ _ M).
    pose proof (filter_partition_length cp fields); lia.
Qed.

Lemma pivot_field_name : forall cp u f p,
  pivot_field cp u f = Ok p -> f_name p = f_name f.
Proof.
  intros cp u f p H; unfold pivot_field in H.
  destruct (u_keys u) as [|kv ks].
  - injection H as <-; reflexivity.
  - destruct (resolve_keys cp (f_name f) (kv :: ks) []); simpl in H; [|discriminate].
    injection H as <-; reflexivity.
Qed.

Lemma pivot_field_no_keys : forall cp u f p,
  u_keys u = [] -> pivot_field cp u f = Ok p -> p = f.
Proof.
  intros cp u f p Hk H; unfold pivot_field in H; rewrite Hk in H.
  injection H as <-; reflexivity.
Qed.

Lemma resolve_specs_origin : forall ufs fields acc P R,
  resolve_specs ufs fields acc = Ok (P, R) ->
  forall p, In p P -> In p acc \/
    exists f u cp, In f fields /\ In u ufs /\ Regex.compile (u_name u) = Ok cp /\
                   match_fields cp true f = true /\ pivot_field cp u f = Ok p.
Proof.
  induction ufs as [|u ufs IH]; intros fields acc P R H p Hp; simpl in H.
  - injection H as <- _; left; exact Hp.
  - destruct (Regex.compile (u_name u)) as [cp|e] eqn:C; simpl in H; [|discriminate].
    destruct (mapM (pivot_field cp u) _) as [ps1|e] eqn:M; simpl in H; [|discriminate].
    destruct (IH _ _ _ _ H p Hp) as [Hin|[f [u' [cp' [Hf [Hu [Hc [Hm Hpv]]]]]]]].
    + apply in_app_or in Hin; destruct Hin as [Hin|Hin]; [left; exact Hin|right].
      destruct (mapM_in _ _ _ M p Hin) as [f [Hf Hpv]].
      apply filter_In in Hf; destruct Hf as [Hf Hm].
      exists f, u, cp; repeat split; auto. left; reflexivity.
    + right; apply filter_In in Hf; destruct Hf as [Hf _].
      exists f, u', cp'; repeat split; auto. right; exact Hu.
Qed.

(** X3: every pivot field the resolver adds carries the name of a schema
    field that some spec's pattern fully matched. *)
Theorem resolve_specs_pivot_names : forall ufs fields P R,
  resolve_specs ufs fields [] = Ok (P, R) ->
  forall p, In p P -> exists f u cp, In f fields /\ In u ufs /\
    Regex.compile (u_name u) = Ok cp /\ match_fields cp true f = true /\
    f_name p = f_name f.
Proof.
  intros ufs fields P R H p Hp.
  destruct (resolve_specs_origin _ _ _ _ _ H p Hp) as [[]|[f [u [cp [? [? [? [? Hpv]]]]]]]].
  exists f, u, cp; repeat split; auto. eapply pivot_field_name; eauto.
Qed.

(** ** Further properties of the row expander *)

Lemma unpivot_row_ok : forall row P keep ev,
  (forall p, In p P -> f_keys p <> None) ->
  (forall k, In k keep -> dict_get row k <> None) ->
  snd (unpivot_row row P keep ev) = None /\ length (fst (unpivot_row row P keep ev)) = length P.
Proof.
  intros row P keep ev HP Hk; induction P as [|p P IH]; simpl; [split; reflexivity|].
  assert (Hn : exists d, new_row p row keep ev = Ok d).
  { unfold new_row.
    destruct (f_keys p) as [ks|] eqn:Ep; [|exfalso; apply (HP p); [left|]; auto].
    simpl; destruct (set_kept_present keep ks row Hk) as [d' Hd']; rewrite Hd'; simpl.
    eexists; reflexivity. }
  destruct Hn as [d Hd]; rewrite Hd.
  destruct IH as [IH1 IH2]; [intros; apply HP; right; assumption|].
  destruct (unpivot_row row P keep ev) as [o e]; simpl in *; split; [assumption|lia].
Qed.

(** X4: when every pivot field has its [keys] and every input row has every
    kept field, the stream raises nothing and yields exactly (number of
    rows) x (number of pivot fields) rows. *)
Theorem unpivot_rows_count : forall rows P keep ev,
  (forall p, In p P -> f_keys p <> None) ->
  (forall row k, In row rows -> In k keep -> dict_get row k <> None) ->
  snd (unpivot_rows rows P keep ev) = None /\
  length (fst (unpivot_rows rows P keep ev)) = length rows * length P.
Proof.
  intros rows P keep ev HP; induction rows as [|row rows IH]; intros Hr; simpl;
    [split; reflexivity|].
  destruct (unpivot_row_ok row P keep ev HP (fun k Hk => Hr row k (or_introl eq_refl) Hk))
    as [H1 H2].
  destruct (unpivot_row row P keep ev) as [o e]; simpl in H1, H2; subst e.
  destruct IH as [IH1 IH2]; [intros; apply Hr; [right|]; assumption|].
  destruct (unpivot_rows rows P keep ev) as [o' e']; simpl in *.
  rewrite length_app; split; [assumption|lia].
Qed.

Lemma dict_get_set_other : forall d k k' v,
  k <> k' -> dict_get (dict_set d k v) k' = dict_get d k'.
Proof.
  induction d as [|[k0 v0] d IH]; intros k k' v Hne; simpl.
  - destruct (String.eqb k k') eqn:E; [apply String.eqb_eq in E; congruence|reflexivity].
  - destruct (String.eqb k0 k) eqn:E; simpl.
    + apply String.eqb_eq in E; subst k0.
      destruct (String.eqb k k') eqn:E'; [apply String.eqb_eq in E'; congruence|reflexivity].
    + destruct (String.eqb k0 k'); [reflexivity|apply IH; exact Hne].
Qed.

Lemma set_kept_get : forall keep d row d',
  set_kept d keep row = Ok d' ->
  forall k, (In k keep -> dict_get d' k = dict_get row k) /\
            (~ In k keep -> dict_get d' k = dict_get d k).
Proof.
  induction keep as [|k0 keep IH]; intros d row d' H k; simpl in H.
  - injection H as <-; split; [intros []|reflexivity].
  - unfold row_lookup in H; destruct (dict_get row k0) as [v|] eqn:Ev; simpl in H;
      [|discriminate].
    destruct (IH _ _ _ H k) as [IH1 IH2].
    destruct (in_dec string_dec k keep) as [Hin|Hnin].
    + split; intros; [apply IH1; exact Hin|exfalso; apply H0; right; exact Hin].
    + rewrite (IH2 Hnin). destruct (string_dec k0 k) as [<-|Hne].
      * split; intros; [rewrite dict_get_set_same; congruence|].
        exfalso; apply H0; left; reflexivity.
      * rewrite (dict_get_set_other _ _ _ _ Hne); split; intros H1;
          [destruct H1 as [H1|H1]; [congruence|contradiction]|reflexivity].
Qed.

(** X5: every yielded row comes from an input row [row] and a pivot field
    [p] with resolved keys [ks]: its value field holds [row.get(p.name)]
    ([None] when absent), each kept field other than the value field holds
    the row's value, and every other name holds what [ks] gives it; the
    value field overrides a kept field or key of the same name, and a kept
    field overrides a key. *)
Theorem unpivot_rows_values : forall rows P keep ev d,
  In d (fst (unpivot_rows rows P keep ev)) ->
  exists row p ks, In row rows /\ In p P /\ f_keys p = Some ks /\
    dict_get d (f_name ev) = Some (match dict_get row (f_name p) with
                                   | Some v => v | None => VNone end) /\
    (forall k, In k keep -> k <> f_name ev -> dict_get d k = dict_get row k) /\
    (forall k, ~ In k keep -> k <> f_name ev -> dict_get d k = dict_get ks k).
Proof.
  intros rows P keep ev d H.
  rewrite unpivot_rows_cut in H.
  apply in_cut_at_error, in_flat_map in H; destruct H as [row [Hrow Hin]].
  apply in_map_iff in Hin; destruct Hin as [p [Hp HinP]].
  unfold new_row in Hp.
  destruct (f_keys p) as [ks|] eqn:Ek; simpl in Hp; [|discriminate].
  destruct (set_kept ks keep row) as [d1|e] eqn:E; simpl in Hp; [|discriminate].
  injection Hp as <-.
  exists row, p, ks; repeat split; auto.
  - apply dict_get_set_same.
  - intros k Hk Hne; rewrite dict_get_set_other by congruence.
    apply (set_kept_get _ _ _ _ E k); exact Hk.
  - intros k Hk Hne; rewrite dict_get_set_other by congruence.
    apply (set_kept_get _ _ _ _ E k); exact Hk.
Qed.

(** X6: specs with an empty [keys] mapping leave their pivot fields without
    a [keys] entry ([field_to_pivot['keys']] is only assigned inside the
    loop over the keys), so once such a field has been pivoted the
    expansion of any non-empty row stream raises [KeyError('keys')] before
    yielding a row. *)
Theorem empty_keys_spec_raises : forall ufs fields P R rows keep ev,
  Forall (fun u => u_keys u = []) ufs ->
  (forall f, In f fields -> f_keys f = None) ->
  resolve_specs ufs fields [] = Ok (P, R) ->
  P <> [] -> rows <> [] ->
  unpivot_rows rows P keep ev = ([], Some (KeyError "keys")).
Proof.
  intros ufs fields P R rows keep ev Hu Hf H HP Hr.
  destruct P as [|p P]; [congruence|]. destruct rows as [|row rows]; [congruence|].
  destruct (resolve_specs_origin _ _ _ _ _ H p ltac:(left; reflexivity))
    as [[]|[f [u [cp [Hin [HinU [_ [_ Hpv]]]]]]]].
  rewrite Forall_forall in Hu.
  rewrite (pivot_field_no_keys _ _ _ _ (Hu u HinU) Hpv).
  simpl; unfold new_row at 1; rewrite (Hf f Hin); reflexivity.
Qed.

(** ** Further properties of [func] *)

Lemma func_ok_inv : forall ufs ek ev matcher pkg desc ss err,
  func ufs ek ev matcher pkg = Ok (desc, ss, err) ->
  exists P ftk, schema_pass ufs ek ev matcher pkg [] None = Ok (desc, P, ftk) /\
                row_pass ev matcher pkg P ftk = (ss, err).
Proof.
  intros ufs ek ev matcher pkg desc ss err H; unfold func in H.
  destruct (schema_pass ufs ek ev matcher pkg [] None) as [[[d P] ftk]|e]; simpl in H;
    [|discriminate].
  destruct (row_pass ev matcher pkg P ftk) as [ss' e'] eqn:E.
  injection H as -> -> ->; exists P, ftk; split; [reflexivity|exact E].
Qed.

Lemma row_pass_nth : forall ev matcher pkg P ftk ss err,
  row_pass ev matcher pkg P ftk = (ss, err) ->
  forall i r s, nth_error pkg i = Some r -> nth_error ss i = Some s ->
  (matcher (res_name r) = false -> s = (res_rows r, None)) /\
  (matcher (res_name r) = true ->
     exists keep, ftk = Some keep /\ s = unpivot_rows (res_rows r) P keep ev).
Proof.
  intros ev matcher pkg P ftk; induction pkg as [|r0 pkg IH]; intros ss err H i r s Hr Hs.
  - destruct i; discriminate.
  - simpl in H. destruct (matcher (res_name r0)) eqn:M; simpl in H.
    + destruct ftk as [keep|]; [|injection H as <- _; destruct i; discriminate].
      destruct (row_pass ev matcher pkg P (Some keep)) as [ss0 e0] eqn:E.
      injection H as <- _. destruct i as [|i]; simpl in Hr, Hs.
      * injection Hr as <-; injection Hs as <-; split; [congruence|].
        intros _; exists keep; split; reflexivity.
      * exact (IH _ _ eq_refl i r s Hr Hs).
    + destruct (row_pass ev matcher pkg P ftk) as [ss0 e0] eqn:E.
      injection H as <- _. destruct i as [|i]; simpl in Hr, Hs.
      * injection Hr as <-; injection Hs as <-; split; [reflexivity|congruence].
      * exact (IH _ _ eq_refl i r s Hr Hs).
Qed.

Lemma row_pass_shape : forall ev matcher pkg P ftk ss err,
  row_pass ev matcher pkg P ftk = (ss, err) ->
  (err = None -> length ss = length pkg) /\
  (forall e, err = Some e ->
     e = UnboundLocalError /\ ftk = None /\
     exists r, In r pkg /\ matcher (res_name r) = true).
Proof.
  intros ev matcher pkg P ftk; induction pkg as [|r0 pkg IH]; intros ss err H; simpl in H.
  - injection H as <- <-; split; [reflexivity|discriminate].
  - destruct (matcher (res_name r0)) eqn:M; simpl in H.
    + destruct ftk as [keep|].
      * destruct (row_pass ev matcher pkg P (Some keep)) as [ss0 e0] eqn:E.
        injection H as <- <-. destruct (IH _ _ eq_refl) as [IH1 IH2]. split.
        -- intros He; simpl; rewrite IH1; auto.
        -- intros e He; destruct (IH2 e He) as [? [? _]]; discriminate.
      * injection H as <- <-; split; [discriminate|].
        intros e He; injection He as <-; repeat split.
        exists r0; split; [left; reflexivity|exact M].
    + destruct (row_pass ev matcher pkg P ftk) as [ss0 e0] eqn:E.
      injection H as <- <-. destruct (IH _ _ eq_refl) as [IH1 IH2]. split.
      * intros He; simpl; rewrite IH1; auto.
      * intros e He; destruct (IH2 e He) as [? [? [r [? ?]]]].
        repeat split; auto. exists r; split; [right|]; assumption.
Qed.

Lemma schema_pass_nth : forall ufs ek ev matcher pkg acc ftk desc P f,
  schema_pass ufs ek ev matcher pkg acc ftk = Ok (desc, P, f) ->
  map res_name desc = map res_name pkg /\
  forall i r, nth_error pkg i = Some r ->
    ((matcher (res_name r) = false \/ res_schema r = None) -> nth_error desc i = Some r) /\
    (forall fields, matcher (res_name r) = true -> res_schema r = Some fields ->
       nth_error desc i = Some (mkResource (res_name r)
                                 (Some (filter (unmatched_by ufs) fields ++ ek ++ [ev]))
                                 (res_rows r))).
Proof.
  intros ufs ek ev matcher pkg; induction pkg as [|r0 pkg IH];
    intros acc ftk desc P f H; simpl in H.
  - injection H as <- _ _; split; [reflexivity|]; intros [|i]; discriminate.
  - assert (Hskip : forall d0 P0 f0,
              schema_pass ufs ek ev matcher pkg acc ftk = Ok (d0, P0, f0) ->
              desc = r0 :: d0 ->
              (matcher (res_name r0) = false \/ res_schema r0 = None) ->
              map res_name desc = map res_name (r0 :: pkg) /\
              forall i r, nth_error (r0 :: pkg) i = Some r ->
                ((matcher (res_name r) = false \/ res_schema r = None) ->
                   nth_error desc i = Some r) /\
                (forall fields, matcher (res_name r) = true -> res_schema r = Some fields ->
                   nth_error desc i = Some (mkResource (res_name r)
                       (Some (filter (unmatched_by ufs) fields ++ ek ++ [ev])) (res_rows r)))).
    { intros d0 P0 f0 E -> Hr0. destruct (IH _ _ _ _ _ E) as [IHn IHi].
      split; [simpl; rewrite IHn; reflexivity|].
      intros [|i] r Hr; simpl in Hr; [|exact (IHi i r Hr)].
      injection Hr as <-; split; [reflexivity|].
      intros fields Hm Hs; exfalso; destruct Hr0; congruence. }
    destruct (matcher (res_name r0)) eqn:M; simpl in H.
    + destruct (res_schema r0) as [fields0|] eqn:S.
      * destruct (resolve_specs ufs fields0 acc) as [[acc' R]|e] eqn:Rs; simpl in H;
          [|discriminate].
        destruct (schema_pass ufs ek ev matcher pkg acc' (Some (map f_name R)))
          as [[[d0 P0] f0]|e] eqn:E; simpl in H; [|discriminate].
        injection H as <- _ _. destruct (IH _ _ _ _ _ E) as [IHn IHi].
        split; [simpl; rewrite IHn; reflexivity|].
        intros [|i] r Hr; simpl in Hr; [|exact (IHi i r Hr)].
        injection Hr as <-; split; [intros [Hm|Hs]; congruence|].
        intros fields Hm Hs; rewrite S in Hs; injection Hs as <-.
        rewrite <- (resolve_specs_remaining _ _ _ _ _ Rs); reflexivity.
      * destruct (schema_pass ufs ek ev matcher pkg acc ftk) as [[[d0 P0] f0]|e] eqn:E;
          simpl in H; [|discriminate].
        injection H as <- _ _; eapply Hskip; eauto.
    + destruct (schema_pass ufs ek ev matcher pkg acc ftk) as [[[d0 P0] f0]|e] eqn:E;
        simpl in H; [|discriminate].
      injection H as <- _ _; eapply Hskip; eauto.
Qed.

Lemma schema_pass_acc_length : forall ufs ek ev matcher pkg acc ftk desc P f,
  schema_pass ufs ek ev matcher pkg acc ftk = Ok (desc, P, f) ->
  length P = length acc + list_sum (map (pivoted_in ufs matcher) pkg).
Proof.
  intros ufs ek ev matcher pkg; induction pkg as [|r0 pkg IH];
    intros acc ftk desc P f H; simpl in H.
  - injection H as _ <- _; simpl; lia.
  - simpl; unfold pivoted_in at 1.
    destruct (matcher (res_name r0)) eqn:M; simpl in H.
    + destruct (res_schema r0) as [fields0|] eqn:S.
      * destruct (resolve_specs ufs fields0 acc) as [[acc' R]|e] eqn:Rs; simpl in H;
          [|discriminate].
        destruct (schema_pass ufs ek ev matcher pkg acc' (Some (map f_name R)))
          as [[[d0 P0] f0]|e] eqn:E; simpl in H; [|discriminate].
        injection H as _ <- _. rewrite (IH _ _ _ _ _ E).
        destruct (resolve_specs_conservation _ _ _ _ _ Rs) as [ps [-> Hl]].
        rewrite <- (resolve_specs_remaining _ _ _ _ _ Rs), length_app; lia.
      * destruct (schema_pass ufs ek ev matcher pkg acc ftk) as [[[d0 P0] f0]|e] eqn:E;
          simpl in H; [|discriminate].
        injection H as _ <- _; rewrite (IH _ _ _ _ _ E); lia.
    + destruct (schema_pass ufs ek ev matcher pkg acc ftk) as [[[d0 P0] f0]|e] eqn:E;
        simpl in H; [|discriminate].
      injection H as _ <- _; rewrite (IH _ _ _ _ _ E); lia.
Qed.

Lemma schema_pass_unassigned : forall ufs ek ev matcher pkg acc ftk desc P,
  schema_pass ufs ek ev matcher pkg acc ftk = Ok (desc, P, None) ->
  ftk = None /\ forall r, In r pkg -> matcher (res_name r) = true -> res_schema r = None.
Proof.
  intros ufs ek ev matcher pkg; induction pkg as [|r0 pkg IH];
    intros acc ftk desc P H; simpl in H.
  - injection H as _ _ ->; split; [reflexivity|intros r []].
  - destruct (matcher (res_name r0)) eqn:M; simpl in H.
    + destruct (res_schema r0) as [fields0|] eqn:S.
      * destruct (resolve_specs ufs fields0 acc) as [[acc' R]|e] eqn:Rs; simpl in H;
          [|discriminate].
        destruct (schema_pass ufs ek ev matcher pkg acc' (Some (map f_name R)))
          as [[[d0 P0] f0]|e] eqn:E; simpl in H; [|discriminate].
        injection H as _ _ ->. destruct (IH _ _ _ _ E); discriminate.
      * destruct (schema_pass ufs ek ev matcher pkg acc ftk) as [[[d0 P0] f0]|e] eqn:E;
          simpl in H; [|discriminate].
        injection H as _ _ ->. destruct (IH _ _ _ _ E) as [? IH2]; split; [assumption|].
        intros r [<-|Hr] Hm; [exact S|exact (IH2 r Hr Hm)].
    + destruct (schema_pass ufs ek ev matcher pkg acc ftk) as [[[d0 P0] f0]|e] eqn:E;
        simpl in H; [|discriminate].
      injection H as _ _ ->. destruct (IH _ _ _ _ E) as [? IH2]; split; [assumption|].
      intros r [<-|Hr] Hm; [congruence|exact (IH2 r Hr Hm)].
Qed.

(** X7: a table the matcher rejects is yielded as it is: its rows,
    unchanged and in order, with no exception. *)
Theorem unpivot_passes_unmatched : forall ufs ek ev matcher pkg desc ss err i r s,
  unpivot ufs ek ev matcher pkg = Ok (desc, ss, err) ->
  nth_error pkg i = Some r -> matcher (res_name r) = false ->
  nth_error ss i = Some s -> s = (res_rows r, None).
Proof.
  intros ufs ek ev matcher pkg desc ss err i r s H Hr Hm Hs.
  destruct (func_ok_inv _ _ _ _ _ _ _ _ H) as [P [ftk [_ Hrow]]].
  exact (proj1 (row_pass_nth _ _ _ _ _ _ _ Hrow i r s Hr Hs) Hm).
Qed.

(** X8: every matched table's stream is [unpivot_rows] of its rows with one
    and the same pivot-field list and [fields_to_keep] for all tables; that
    list holds the pivoted fields of every matched table with a schema. *)
Theorem unpivot_shared_pivot_list : forall ufs ek ev matcher pkg desc ss err,
  unpivot ufs ek ev matcher pkg = Ok (desc, ss, err) ->
  exists P keep, length P = list_sum (map (pivoted_in ufs matcher) pkg) /\
    forall i r s, nth_error pkg i = Some r -> matcher (res_name r) = true ->
      nth_error ss i = Some s -> s = unpivot_rows (res_rows r) P keep ev.
Proof.
  intros ufs ek ev matcher pkg desc ss err H.
  destruct (func_ok_inv _ _ _ _ _ _ _ _ H) as [P [ftk [Hs Hrow]]].
  pose proof (schema_pass_acc_length _ _ _ _ _ _ _ _ _ _ Hs) as HL; simpl in HL.
  destruct ftk as [keep|].
  - exists P, keep; split; [exact HL|]. intros i r s Hr Hm Hsi.
    destruct (proj2 (row_pass_nth _ _ _ _ _ _ _ Hrow i r s Hr Hsi) Hm) as [k [Hk ->]].
    injection Hk as <-; reflexivity.
  - exists P, []; split; [exact HL|]. intros i r s Hr Hm Hsi.
    destruct (proj2 (row_pass_nth _ _ _ _ _ _ _ Hrow i r s Hr Hsi) Hm) as [k [Hk _]].
    discriminate.
Qed.

(** X9: when [func] runs to the end it yields one stream per resource; the
    only exception it can raise after the descriptor is [UnboundLocalError],
    and only when some table is matched and no matched table has a schema. *)
Theorem unpivot_output_shape : forall ufs ek ev matcher pkg desc ss err,
  unpivot ufs ek ev matcher pkg = Ok (desc, ss, err) ->
  (err = None -> length ss = length pkg) /\
  (forall e, err = Some e ->
     e = UnboundLocalError /\
     (exists r, In r pkg /\ matcher (res_name r) = true) /\
     (forall r, In r pkg -> matcher (res_name r) = true -> res_schema r = None)).
Proof.
  intros ufs ek ev matcher pkg desc ss err H.
  destruct (func_ok_inv _ _ _ _ _ _ _ _ H) as [P [ftk [Hs Hrow]]].
  destruct (row_pass_shape _ _ _ _ _ _ _ Hrow) as [H1 H2]; split; [exact H1|].
  intros e He; destruct (H2 e He) as [-> [-> Hex]].
  destruct (schema_pass_unassigned _ _ _ _ _ _ _ _ _ Hs) as [_ Hn].
  repeat split; assumption.
Qed.

(** X10: the yielded descriptor keeps the resources' names and order; a
    table that is not matched or has no schema is left as it is, and the
    schema of a matched table becomes its fields matched by no spec, in
    order and with their descriptors, then [extra_keys], then
    [extra_value]. *)
Theorem unpivot_descriptor : forall ufs ek ev matcher pkg desc ss err,
  unpivot ufs ek ev matcher pkg = Ok (desc, ss, err) ->
  map res_name desc = map res_name pkg /\
  forall i r, nth_error pkg i = Some r ->
    ((matcher (res_name r) = false \/ res_schema r = None) -> nth_error desc i = Some r) /\
    (forall fields, matcher (res_name r) = true -> res_schema r = Some fields ->
       nth_error desc i = Some (mkResource (res_name r)
                                 (Some (filter (unmatched_by ufs) fields ++ ek ++ [ev]))
                                 (res_rows r))).
Proof.
  intros ufs ek ev matcher pkg desc ss err H.
  destruct (func_ok_inv _ _ _ _ _ _ _ _ H) as [P [ftk [Hs _]]].
  exact (schema_pass_nth _ _ _ _ _ _ _ _ _ _ Hs).
Qed.

Lemma pivoted_in_nil : forall matcher r, pivoted_in [] matcher r = 0.
Proof.
  intros matcher r; unfold pivoted_in.
  destruct (matcher (res_name r)); [|reflexivity].
  destruct (res_schema r) as [fields|]; [|reflexivity].
  unfold unmatched_by; simpl; rewrite filter_true; lia.
Qed.

Lemma unpivot_rows_nil : forall rows keep ev, unpivot_rows rows [] keep ev = ([], None).
Proof.
  induction rows as [|row rows IH]; intros keep ev; simpl; [reflexivity|].
  rewrite IH; reflexivity.
Qed.

(** X11: with an empty [unpivot_fields] nothing is pivoted, so every
    matched table's stream yields no row at all. *)
Theorem unpivot_no_specs_empty_streams : forall ek ev matcher pkg desc ss err,
  unpivot [] ek ev matcher pkg = Ok (desc, ss, err) ->
  forall i r s, nth_error pkg i = Some r -> matcher (res_name r) = true ->
    nth_error ss i = Some s -> s = ([], None).
Proof.
  intros ek ev matcher pkg desc ss err H i r s Hr Hm Hsi.
  destruct (func_ok_inv _ _ _ _ _ _ _ _ H) as [P [ftk [Hs Hrow]]].
  pose proof (schema_pass_acc_length _ _ _ _ _ _ _ _ _ _ Hs) as HL.
  assert (Hz : list_sum (map (pivoted_in [] matcher) pkg) = 0).
  { clear; induction pkg as [|r pkg IH]; simpl; [reflexivity|].
    rewrite pivoted_in_nil, IH; reflexivity. }
  rewrite Hz in HL; simpl in HL; destruct P; [|discriminate].
  destruct (proj2 (row_pass_nth _ _ _ _ _ _ _ Hrow i r s Hr Hsi) Hm) as [k [_ ->]].
  apply unpivot_rows_nil.
Qed.

(** ** Witnesses of the further properties *)

Lemma resolve_specs_remaining_witness :
  resolve_specs [spec_x; spec_x1] fields_w [] = Ok (pivots_w, [fld "id"])
  /\ [fld "id"] = filter (unmatched_by [spec_x; spec_x1]) fields_w.
Proof.
  assert (H : resolve_specs [spec_x; spec_x1] fields_w [] = Ok (pivots_w, [fld "id"]))
    by (vm_compute; reflexivity).
  split; [exact H|exact (resolve_specs_remaining _ _ _ _ _ H)].
Defined.

Lemma resolve_specs_conservation_witness :
  resolve_specs [spec_x; spec_x1] fields_w [] = Ok (pivots_w, [fld "id"])
  /\ exists ps, pivots_w = [] ++ ps /\ length ps + length [fld "id"] = length fields_w.
Proof.
  assert (H : resolve_specs [spec_x; spec_x1] fields_w [] = Ok (pivots_w, [fld "id"]))
    by (vm_compute; reflexivity).
  split; [exact H|exact (resolve_specs_conservation _ _ _ _ _ H)].
Defined.

Lemma resolve_specs_pivot_names_witness :
  resolve_specs [spec_x; spec_x1] fields_w [] = Ok (pivots_w, [fld "id"])
  /\ In (mkField "x1" (Some [("k", VStr "1")])) pivots_w
  /\ exists f u cp, In f fields_w /\ In u [spec_x; spec_x1] /\
       Regex.compile (u_name u) = Ok cp /\ match_fields cp true f = true /\
       f_name (mkField "x1" (Some [("k", VStr "1")])) = f_name f.
Proof.
  assert (H : resolve_specs [spec_x; spec_x1] fields_w [] = Ok (pivots_w, [fld "id"]))
    by (vm_compute; reflexivity).
  assert (Hin : In (mkField "x1" (Some [("k", VStr "1")])) pivots_w) by (left; reflexivity).
  split; [exact H|split; [exact Hin|]].
  exact (resolve_specs_pivot_names _ _ _ _ H _ Hin).
Defined.

Lemma unpivot_rows_count_witness :
  (forall p, In p [q1_pivot] -> f_keys p <> None)
  /\ (forall row k, In row (res_rows sales1) -> In k ["region"] -> dict_get row k <> None)
  /\ snd (unpivot_rows (res_rows sales1) [q1_pivot] ["region"] amount) = None
  /\ length (fst (unpivot_rows (res_rows sales1) [q1_pivot] ["region"] amount))
     = length (res_rows sales1) * length [q1_pivot].
Proof.
  assert (HP : forall p, In p [q1_pivot] -> f_keys p <> None)
    by (intros p [<-|[]]; discriminate).
  assert (HR : forall row k, In row (res_rows sales1) -> In k ["region"] ->
                             dict_get row k <> None)
    by (intros row k [<-|[]] [<-|[]]; discriminate).
  split; [exact HP|split; [exact HR|]].
  exact (unpivot_rows_count _ _ _ _ HP HR).
Defined.

Lemma unpivot_rows_values_witness :
  In [("quarter", VStr "1"); ("region", VStr "east"); ("amount", VInt 10)]
     (fst (unpivot_rows (res_rows sales1) [q1_pivot] ["region"] amount))
  /\ exists row p ks, In row (res_rows sales1) /\ In p [q1_pivot] /\ f_keys p = Some ks /\
    dict_get [("quarter", VStr "1"); ("region", VStr "east"); ("amount", VInt 10)]
             (f_name amount)
      = Some (match dict_get row (f_name p) with Some v => v | None => VNone end) /\
    (forall k, In k ["region"] -> k <> f_name amount ->
       dict_get [("quarter", VStr "1"); ("region", VStr "east"); ("amount", VInt 10)] k
       = dict_get row k) /\
    (forall k, ~ In k ["region"] -> k <> f_name amount ->
       dict_get [("quarter", VStr "1"); ("region", VStr "east"); ("amount", VInt 10)] k
       = dict_get ks k).
Proof.
  assert (Hin : In [("quarter", VStr "1"); ("region", VStr "east"); ("amount", VInt 10)]
                   (fst (unpivot_rows (res_rows sales1) [q1_pivot] ["region"] amount)))
    by (vm_compute; left; reflexivity).
  split; [exact Hin|exact (unpivot_rows_values _ _ _ _ _ Hin)].
Defined.

Lemma empty_keys_spec_raises_witness :
  resolve_specs [spec_x_nokeys] [fld "x1"] [] = Ok ([fld "x1"], [])
  /\ unpivot_rows [[("x1", VInt 1)]] [fld "x1"] [] amount = ([], Some (KeyError "keys")).
Proof.
  assert (H : resolve_specs [spec_x_nokeys] [fld "x1"] [] = Ok ([fld "x1"], []))
    by (vm_compute; reflexivity).
  split; [exact H|].
  apply (empty_keys_spec_raises [spec_x_nokeys] [fld "x1"] [fld "x1"] [] _ [] amount).
  - repeat constructor.
  - intros f [<-|[]]; reflexivity.
  - exact H.
  - discriminate.
  - discriminate.
Defined.

Lemma unpivot_passes_unmatched_witness :
  unpivot [spec_backslash] [] amount sales_only pkg_w = Ok (desc_w, ss_w, None)
  /\ nth_error pkg_w 1 = Some other /\ sales_only (res_name other) = false
  /\ nth_error ss_w 1 = Some (res_rows other, None)
  /\ (res_rows other, None) = (res_rows other, @None exn).
Proof.
  assert (H : unpivot [spec_backslash] [] amount sales_only pkg_w = Ok (desc_w, ss_w, None))
    by (vm_compute; reflexivity).
  split; [exact H|]; split; [reflexivity|]; split; [reflexivity|]; split; [reflexivity|].
  exact (unpivot_passes_unmatched _ _ _ _ _ _ _ _ 1 other _ H eq_refl eq_refl eq_refl).
Defined.

Lemma unpivot_shared_pivot_list_witness :
  unpivot [spec_backslash] [] amount sales_only pkg_w = Ok (desc_w, ss_w, None)
  /\ exists P keep, length P = list_sum (map (pivoted_in [spec_backslash] sales_only) pkg_w) /\
    forall i r s, nth_error pkg_w i = Some r -> sales_only (res_name r) = true ->
      nth_error ss_w i = Some s -> s = unpivot_rows (res_rows r) P keep amount.
Proof.
  assert (H : unpivot [spec_backslash] [] amount sales_only pkg_w = Ok (desc_w, ss_w, None))
    by (vm_compute; reflexivity).
  split; [exact H|exact (unpivot_shared_pivot_list _ _ _ _ _ _ _ _ H)].
Defined.

Lemma unpivot_output_shape_witness :
  unpivot [spec_backslash] [] amount all_tables [other] = Ok ([other], [], Some UnboundLocalError)
  /\ (Some UnboundLocalError = None -> length (@nil stream) = length [other]) /\
  (forall e, Some UnboundLocalError = Some e ->
     e = UnboundLocalError /\
     (exists r, In r [other] /\ all_tables (res_name r) = true) /\
     (forall r, In r [other] -> all_tables (res_name r) = true -> res_schema r = None)).
Proof.
  assert (H : unpivot [spec_backslash] [] amount all_tables [other]
              = Ok ([other], [], Some UnboundLocalError))
    by (vm_compute; reflexivity).
  split; [exact H|exact (unpivot_output_shape _ _ _ _ _ _ _ _ H)].
Defined.

Lemma unpivot_descriptor_witness :
  unpivot [spec_backslash] [] amount sales_only pkg_w = Ok (desc_w, ss_w, None)
  /\ map res_name desc_w = map res_name pkg_w /\
  forall i r, nth_error pkg_w i = Some r ->
    ((sales_only (res_name r) = false \/ res_schema r = None) -> nth_error desc_w i = Some r) /\
    (forall fields, sales_only (res_name r) = true -> res_schema r = Some fields ->
       nth_error desc_w i = Some (mkResource (res_name r)
                                 (Some (filter (unmatched_by [spec_backslash]) fields
                                        ++ [] ++ [amount])) (res_rows r))).
Proof.
  assert (H : unpivot [spec_backslash] [] amount sales_only pkg_w = Ok (desc_w, ss_w, None))
    by (vm_compute; reflexivity).
  split; [exact H|exact (unpivot_descriptor _ _ _ _ _ _ _ _ H)].
Defined.

Lemma unpivot_no_specs_empty_streams_witness :
  unpivot [] [] amount all_tables pkg_w = Ok (desc_no_specs, [([], None); ([], None)], None)
  /\ nth_error ([([], None); ([], None)] : list stream) 0 = Some ([], None).
Proof.
  assert (H : unpivot [] [] amount all_tables pkg_w
              = Ok (desc_no_specs, [([], None); ([], None)], None))
    by (vm_compute; reflexivity).
  split; [exact H|].
  exact (f_equal Some (unpivot_no_specs_empty_streams _ _ _ _ _ _ _ H 0 sales1 ([], None)
                         eq_refl eq_refl eq_refl)).
Defined.
